(** * PiiWaitCondition (src/core/PiiWaitCondition.h)

    A wait condition that remembers wake signals sent while no thread is
    waiting.  The header declares the data (a [bool _bQueue] and two
    [unsigned int] counters), the default construction argument, the
    accessors and the signature of [wait]; the bodies of the constructor,
    [wait], [wakeOne] and [wakeAll] live in PiiWaitCondition.cpp, which is
    not part of the sources, and are modelled from the specification.

    Concurrency is modelled by interleaving: each critical section under
    [_mutex] is one atomic step of a global state made of the object's
    fields and the local state of every thread.  Which thread runs next,
    which blocked thread a notify-one releases and when a timeout elapses
    are the scheduler's choices, written as the event of a step. *)

From Stdlib Require Import ZArith Lia Bool.
From stdpp Require Import base list.

Open Scope Z_scope.

(** ** Machine integers *)

(** [unsigned int] is 32 bits wide; [++] and [--] wrap around. *)
Definition uint_modulus : Z := 2 ^ 32.
Definition UINT_MAX : Z := uint_modulus - 1.
Definition uint_incr (x : Z) : Z := (x + 1) mod uint_modulus.
Definition uint_decr (x : Z) : Z := (x - 1) mod uint_modulus.

(** [unsigned long] on the LP64 data model (Linux, macOS): 64 bits. *)
Definition ulong_modulus : Z := 2 ^ 64.
Definition ULONG_MAX : Z := ulong_modulus - 1.

(** The implicit conversion of a C++ integer argument to [unsigned long]. *)
Definition to_ulong (x : Z) : Z := x mod ulong_modulus.

(** ** The object *)

(** [enum QueueMode { NoQueue, Queue };] *)
Inductive QueueMode := NoQueue | Queue.

Definition QueueMode_eqb (a b : QueueMode) : bool :=
  match a, b with
  | NoQueue, NoQueue | Queue, Queue => true
  | _, _ => false
  end.

(** The data members [_bQueue], [_iWaiters] and [_iWakeSignals]
    ([_condition] and [_mutex] are the scheduler's business below). *)
Record PiiWaitCondition := mkWC {
  _bQueue : bool;
  _iWaiters : Z;
  _iWakeSignals : Z
}.

(** Every [unsigned int] member holds a value of its type. *)
Definition wc_wf (c : PiiWaitCondition) : Prop :=
  0 <= _iWaiters c < uint_modulus /\ 0 <= _iWakeSignals c < uint_modulus.

(** [QueueMode queueMode() const { return _bQueue ? Queue : NoQueue; }] *)
Definition queueMode (c : PiiWaitCondition) : QueueMode :=
  if _bQueue c then Queue else NoQueue.

(** [unsigned int queueLength() const { return _iWakeSignals; }] *)
Definition queueLength (c : PiiWaitCondition) : Z := _iWakeSignals c.

(** [unsigned int waiterCount() const { return _iWaiters; }] *)
Definition waiterCount (c : PiiWaitCondition) : Z := _iWaiters c.

(** Modelled from the spec: the constructor body (PiiWaitCondition.cpp is
    missing).  "Construct(mode): a fresh instance with waiterCount = 0,
    pendingSignals = 0"; the mode is kept in [_bQueue], which
    [queueMode] maps back to the mode. *)
Definition construct (mode : QueueMode) : PiiWaitCondition :=
  {| _bQueue := QueueMode_eqb mode Queue; _iWaiters := 0; _iWakeSignals := 0 |}.

(** [PiiWaitCondition(QueueMode mode = NoQueue);] *)
Definition default_mode : QueueMode := NoQueue.

Definition construct_default : PiiWaitCondition := construct default_mode.

(** ** Threads *)

(** The local state of a thread with respect to this object.  A thread
    inside [wait] keeps the [time] argument of its call. *)
Inductive tstate :=
  | TIdle                 (** not inside [wait], never called it *)
  | TBlocked (time : Z)   (** suspended on [_condition], mutex released *)
  | TWoken (time : Z)     (** released by a notify, not yet holding the mutex *)
  | TTimedOut (time : Z)  (** the bound elapsed, not yet holding the mutex *)
  | TDone (result : bool). (** returned from [wait] with [result] *)

(** A thread that may call [wait]. *)
Definition ready (t : tstate) : bool :=
  match t with TIdle | TDone _ => true | _ => false end.

Definition is_blocked (t : tstate) : bool :=
  match t with TBlocked _ => true | _ => false end.

Definition no_blocked (ts : list tstate) : bool :=
  forallb (fun t => negb (is_blocked t)) ts.

(** A notify-all on [_condition]: every suspended thread is released. *)
Definition release_all (ts : list tstate) : list tstate :=
  (fun t => match t with TBlocked tm => TWoken tm | _ => t end) <$> ts.

Record sys := mkSys {
  obj : PiiWaitCondition;
  threads : list tstate
}.

Inductive event :=
  | EWait (i : nat) (time : Z)     (** thread [i] calls [wait(time)] *)
  | EWakeOne (pick : option nat)   (** some thread calls [wakeOne()];
                                       [pick] is the thread the notify releases *)
  | EWakeAll                       (** some thread calls [wakeAll()] *)
  | ETimeout (i : nat)             (** the bound of blocked thread [i] elapses *)
  | ESpurious (i : nat)            (** a spurious wakeup of blocked thread [i] *)
  | EResume (i : nat).             (** thread [i] reacquires the mutex in [wait] *)

(** ** The operations *)

(** Modelled from the spec: [bool wait(unsigned long time = ULONG_MAX)]
    (body missing), first critical section.
    "If pendingSignals > 0: decrement pendingSignals by 1, return success
    immediately.  Otherwise: increment waiterCount, release the lock while
    suspending on the internal blocking primitive bounded by timeout."
    The argument is converted to [unsigned long] at the call. *)
Definition wait_enter (s : sys) (i : nat) (time : Z) : option sys :=
  match threads s !! i with
  | Some t =>
      if ready t then
        let c := obj s in
        if 0 <? _iWakeSignals c then
          Some {| obj := {| _bQueue := _bQueue c; _iWaiters := _iWaiters c;
                            _iWakeSignals := uint_decr (_iWakeSignals c) |};
                  threads := <[i := TDone true]> (threads s) |}
        else
          Some {| obj := {| _bQueue := _bQueue c;
                            _iWaiters := uint_incr (_iWaiters c);
                            _iWakeSignals := _iWakeSignals c |};
                  threads := <[i := TBlocked (to_ulong time)]> (threads s) |}
      else None
  | None => None
  end.

(** Modelled from the spec: [wait], second critical section.  "On
    resumption, decrement waiterCount.  Return success if resumption was
    caused by a wake; return failure (timed out) if the bound elapsed with
    no wake." *)
Definition wait_resume (s : sys) (i : nat) : option sys :=
  let c := obj s in
  let c' := {| _bQueue := _bQueue c; _iWaiters := uint_decr (_iWaiters c);
               _iWakeSignals := _iWakeSignals c |} in
  match threads s !! i with
  | Some (TWoken _) => Some {| obj := c'; threads := <[i := TDone true]> (threads s) |}
  | Some (TTimedOut _) => Some {| obj := c'; threads := <[i := TDone false]> (threads s) |}
  | _ => None
  end.

(** The bound of a blocked thread elapses.  The header: "If time is
    ULONG_MAX (the default), then the wait will never timeout". *)
Definition timeout (s : sys) (i : nat) : option sys :=
  match threads s !! i with
  | Some (TBlocked tm) =>
      if Z.eqb tm ULONG_MAX then None
      else Some {| obj := obj s; threads := <[i := TTimedOut tm]> (threads s) |}
  | _ => None
  end.

(** A spurious wakeup: "spurious wakeups from the underlying primitive must
    be filtered by re-checking the wake condition"; the re-check finds no
    wake and the thread suspends again. *)
Definition spurious (s : sys) (i : nat) : option sys :=
  match threads s !! i with
  | Some (TBlocked _) => Some s
  | _ => None
  end.

(** Modelled from the spec: [void wakeOne()] (body missing).
    "If waiterCount > 0: release exactly one blocked thread (standard
    notify-one) ... No change to pendingSignals.  Else: in Queue mode
    increment pendingSignals by 1; in NoQueue mode set pendingSignals to 1
    if it is currently 0."  A notify-one releases the blocked thread
    [pick]; with no thread suspended on [_condition] it does nothing. *)
Definition wakeOne (s : sys) (pick : option nat) : option sys :=
  let c := obj s in
  if Z.eqb (_iWaiters c) 0 then
    let n := if _bQueue c then uint_incr (_iWakeSignals c)
             else if Z.eqb (_iWakeSignals c) 0 then 1 else _iWakeSignals c in
    Some {| obj := {| _bQueue := _bQueue c; _iWaiters := _iWaiters c;
                      _iWakeSignals := n |};
            threads := threads s |}
  else
    match pick with
    | Some j =>
        match threads s !! j with
        | Some (TBlocked tm) =>
            Some {| obj := c; threads := <[j := TWoken tm]> (threads s) |}
        | _ => None
        end
    | None => if no_blocked (threads s) then Some s else None
    end.

(** Modelled from the spec: [void wakeAll()] (body missing).  "Releases
    every currently blocked thread, and unconditionally resets
    pendingSignals to 0 regardless of mode." *)
Definition wakeAll (s : sys) : sys :=
  let c := obj s in
  {| obj := {| _bQueue := _bQueue c; _iWaiters := _iWaiters c; _iWakeSignals := 0 |};
     threads := release_all (threads s) |}.

(** One atomic step of the interleaving; [None] when the event cannot
    happen in [s]. *)
Definition step (s : sys) (e : event) : option sys :=
  match e with
  | EWait i tm => wait_enter s i tm
  | EWakeOne pick => wakeOne s pick
  | EWakeAll => Some (wakeAll s)
  | ETimeout i => timeout s i
  | ESpurious i => spurious s i
  | EResume i => wait_resume s i
  end.

Fixpoint run (s : sys) (es : list event) : option sys :=
  match es with
  | [] => Some s
  | e :: es' => match step s e with Some s' => run s' es' | None => None end
  end.

(** A fresh object shared by [n] threads. *)
Definition init (mode : QueueMode) (n : nat) : sys :=
  {| obj := construct mode; threads := replicate n TIdle |}.

Definition reachable (mode : QueueMode) (s : sys) : Prop :=
  exists n es, run (init mode n) es = Some s.

(** The status of thread [i] in [s]. *)
Definition thread (s : sys) (i : nat) : option tstate := threads s !! i.

(** The header's example: thread 2 signals twice while thread 1 is busy,
    then thread 1 waits twice and returns immediately both times. *)
Example queue_example :
  option_map (fun s => (queueLength (obj s), thread s 0))
    (run (init Queue 1) [EWakeOne None; EWakeOne None; EWait 0 ULONG_MAX])
  = Some (1, Some (TDone true)).
Proof. reflexivity. Qed.

(** ** Basic facts about the steps *)

Ltac unfold_step :=
  unfold step, wait_enter, wait_resume, timeout, spurious, wakeOne, wakeAll in *.

Lemma run_app (s : sys) (es1 es2 : list event) :
  run s (es1 ++ es2) = match run s es1 with Some s' => run s' es2 | None => None end.
Proof.
  revert s. induction es1 as [|e es1 IH]; intros s; simpl; [done|].
  destruct (step s e); [apply IH|done].
Qed.

(** The mode is fixed at construction: no step changes [_bQueue]. *)
Lemma step_bQueue (s s' : sys) (e : event) :
  step s e = Some s' -> _bQueue (obj s') = _bQueue (obj s).
Proof. intros H. unfold_step. destruct e; repeat case_match; simplify_eq/=; done. Qed.

Lemma run_bQueue (s s' : sys) (es : list event) :
  run s es = Some s' -> _bQueue (obj s') = _bQueue (obj s).
Proof.
  revert s. induction es as [|e es IH]; intros s H; simpl in H; [by simplify_eq|].
  destruct (step s e) as [s1|] eqn:E; [|done].
  rewrite (IH _ H). by apply step_bQueue in E.
Qed.

Lemma reachable_mode (mode : QueueMode) (s : sys) :
  reachable mode s -> queueMode (obj s) = mode.
Proof.
  intros (n & es & H). apply run_bQueue in H. unfold queueMode. rewrite H.
  by destruct mode.
Qed.

(** Lookup in the thread table after a step. *)
Lemma lookup_release_all (ts : list tstate) (i : nat) :
  release_all ts !! i =
  (fun t => match t with TBlocked tm => TWoken tm | _ => t end) <$> (ts !! i).
Proof. unfold release_all. by rewrite list_lookup_fmap. Qed.

(** A [wakeOne] with no waiter counted only touches [_iWakeSignals]. *)
Lemma wakeOne_no_waiter (s : sys) (pick : option nat) :
  waiterCount (obj s) = 0 ->
  step s (EWakeOne pick) =
  Some {| obj := {| _bQueue := _bQueue (obj s); _iWaiters := 0;
                    _iWakeSignals :=
                      if _bQueue (obj s) then uint_incr (_iWakeSignals (obj s))
                      else if Z.eqb (_iWakeSignals (obj s)) 0 then 1
                      else _iWakeSignals (obj s) |};
          threads := threads s |}.
Proof. unfold waiterCount. intros H. simpl. unfold wakeOne. by rewrite H. Qed.

(** [k] consecutive [wakeOne] calls with no waiter in [Queue] mode: the
    counter advances by [k] modulo [2^32]. *)
Lemma wakes_queue (b : bool) (p : Z) (ts : list tstate) (k : nat) :
  b = true -> 0 <= p < uint_modulus ->
  run {| obj := {| _bQueue := b; _iWaiters := 0; _iWakeSignals := p |}; threads := ts |}
      (repeat (EWakeOne None) k)
  = Some {| obj := {| _bQueue := b; _iWaiters := 0;
                      _iWakeSignals := (p + Z.of_nat k) mod uint_modulus |};
            threads := ts |}.
Proof.
  intros -> Hp. revert p Hp. induction k as [|k IH]; intros p Hp.
  - simpl. rewrite Z.add_0_r, Z.mod_small by done. done.
  - simpl repeat. cbn [run]. rewrite wakeOne_no_waiter by done. cbn [obj threads _bQueue _iWakeSignals].
    rewrite IH.
    + unfold uint_incr. rewrite Z.add_mod_idemp_l by (unfold uint_modulus; lia).
      do 4 f_equal. lia.
    + unfold uint_incr. apply Z.mod_pos_bound. unfold uint_modulus; lia.
Qed.

(** [k >= 1] consecutive [wakeOne] calls with no waiter in [NoQueue] mode
    leave exactly one signal. *)
Lemma wakes_noqueue (b : bool) (p : Z) (ts : list tstate) (k : nat) :
  b = false -> 0 <= p <= 1 -> (1 <= k)%nat ->
  run {| obj := {| _bQueue := b; _iWaiters := 0; _iWakeSignals := p |}; threads := ts |}
      (repeat (EWakeOne None) k)
  = Some {| obj := {| _bQueue := b; _iWaiters := 0; _iWakeSignals := 1 |};
            threads := ts |}.
Proof.
  intros -> Hp Hk. revert p Hp. induction k as [|k IH]; intros p Hp; [lia|].
  simpl repeat. cbn [run]. rewrite wakeOne_no_waiter by done.
  cbn [obj threads _bQueue _iWakeSignals].
  assert ((if Z.eqb p 0 then 1 else p) = 1) as ->.
  { destruct (Z.eqb_spec p 0); lia. }
  destruct k as [|k]; [done|]. apply IH; lia.
Qed.

(** ** Invariants of the reachable states *)

Lemma uint_range (x : Z) : 0 <= x mod uint_modulus < uint_modulus.
Proof. apply Z.mod_pos_bound. unfold uint_modulus; lia. Qed.

Lemma step_wf (s s' : sys) (e : event) :
  wc_wf (obj s) -> step s e = Some s' -> wc_wf (obj s').
Proof.
  unfold wc_wf. intros Hwf H. unfold_step.
  destruct e; repeat case_match; simplify_eq/=;
    unfold uint_incr, uint_decr in *;
    repeat split; try apply uint_range; try lia.
Qed.

(** In [NoQueue] mode at most one signal is remembered. *)
Definition noqueue_bound (c : PiiWaitCondition) : Prop :=
  _bQueue c = false -> 0 <= _iWakeSignals c <= 1.

Lemma step_noqueue_bound (s s' : sys) (e : event) :
  noqueue_bound (obj s) -> step s e = Some s' -> noqueue_bound (obj s').
Proof.
  unfold noqueue_bound. intros Hb H. unfold_step.
  destruct e; repeat case_match; simplify_eq/=; intros Hq; try lia;
    specialize (Hb Hq); unfold uint_decr in *;
    repeat match goal with
    | Hx : (0 <? _) = true |- _ => apply Z.ltb_lt in Hx
    | Hx : Z.eqb _ _ = true |- _ => apply Z.eqb_eq in Hx
    | Hx : Z.eqb _ _ = false |- _ => apply Z.eqb_neq in Hx
    end; try lia.
  assert (_iWakeSignals (obj s) = 1) as -> by lia. done.
Qed.

(** A timed-out thread was not waiting forever. *)
Definition timeouts_bounded (ts : list tstate) : Prop :=
  forall i tm, ts !! i = Some (TTimedOut tm) -> tm <> ULONG_MAX.

Lemma step_timeouts_bounded (s s' : sys) (e : event) :
  timeouts_bounded (threads s) -> step s e = Some s' -> timeouts_bounded (threads s').
Proof.
  unfold timeouts_bounded. intros Hb H j tm Hj. unfold_step.
  destruct e; repeat case_match; simplify_eq/=;
    first
      [ by apply (Hb j)
      | rewrite lookup_release_all in Hj;
        destruct (threads s !! j) as [[]|] eqn:E; simplify_eq/=; by apply (Hb j)
      | apply list_lookup_insert_Some in Hj as [(_ & Heq & _)|(_ & Hj)];
        [simplify_eq; by apply Z.eqb_neq | by apply (Hb j)] ].
Qed.

(** The three invariants together, for every state reachable from a fresh
    object. *)
Definition inv (s : sys) : Prop :=
  wc_wf (obj s) /\ noqueue_bound (obj s) /\ timeouts_bounded (threads s).

Lemma init_inv (mode : QueueMode) (n : nat) : inv (init mode n).
Proof.
  split; [|split].
  - unfold wc_wf. simpl. unfold uint_modulus. lia.
  - unfold noqueue_bound. simpl. lia.
  - intros i tm Hi. simpl in Hi. apply lookup_replicate in Hi as [? _]. done.
Qed.

Lemma run_inv (s s' : sys) (es : list event) :
  inv s -> run s es = Some s' -> inv s'.
Proof.
  revert s. induction es as [|e es IH]; intros s (H1 & H2 & H3) H; simpl in H; [by simplify_eq|].
  destruct (step s e) as [s1|] eqn:E; [|done].
  apply (IH s1); [|done]. split; [|split].
  - by apply (step_wf s s1 e).
  - by apply (step_noqueue_bound s s1 e).
  - by apply (step_timeouts_bounded s s1 e).
Qed.

Lemma reachable_inv (mode : QueueMode) (s : sys) : reachable mode s -> inv s.
Proof. intros (n & es & H). apply (run_inv _ _ _ (init_inv mode n) H). Qed.

(** ** The two paths of [wait] *)

Definition ready_at (s : sys) (i : nat) : bool :=
  match thread s i with Some t => ready t | None => false end.

Definition waits (ws : list (nat * Z)) : list event :=
  (fun w => EWait w.1 w.2) <$> ws.

Lemma wait_enter_fast (s : sys) (i : nat) (tm : Z) :
  ready_at s i = true -> 0 < _iWakeSignals (obj s) < uint_modulus ->
  step s (EWait i tm) =
  Some {| obj := {| _bQueue := _bQueue (obj s); _iWaiters := _iWaiters (obj s);
                    _iWakeSignals := _iWakeSignals (obj s) - 1 |};
          threads := <[i := TDone true]> (threads s) |}.
Proof.
  unfold ready_at, thread. intros Hr Hp. simpl. unfold wait_enter.
  destruct (threads s !! i) as [t|]; [|done]. rewrite Hr.
  assert ((0 <? _iWakeSignals (obj s)) = true) as -> by (apply Z.ltb_lt; lia).
  unfold uint_decr. rewrite Z.mod_small by lia. done.
Qed.

Lemma wait_enter_block (s : sys) (i : nat) (tm : Z) :
  ready_at s i = true -> _iWakeSignals (obj s) = 0 ->
  step s (EWait i tm) =
  Some {| obj := {| _bQueue := _bQueue (obj s); _iWaiters := uint_incr (_iWaiters (obj s));
                    _iWakeSignals := 0 |};
          threads := <[i := TBlocked (to_ulong tm)]> (threads s) |}.
Proof.
  unfold ready_at, thread. intros Hr Hp. simpl. unfold wait_enter.
  destruct (threads s !! i) as [t|]; [|done]. rewrite Hr, Hp. done.
Qed.

Lemma ready_at_insert_done (s : sys) (i j : nat) (b : bool) (c : PiiWaitCondition) :
  ready_at s i = true -> ready_at s j = true ->
  ready_at {| obj := c; threads := <[i := TDone b]> (threads s) |} j = true.
Proof.
  unfold ready_at, thread. simpl. intros Hi Hj.
  destruct (decide (i = j)) as [->|Hne].
  - destruct (threads s !! j) eqn:E; [|done].
    rewrite list_lookup_insert_eq; [done|]. apply lookup_lt_is_Some_1. by eexists.
  - by rewrite list_lookup_insert_ne.
Qed.

Lemma lookup_insert_self (ts : list tstate) (i : nat) (t t' : tstate) :
  ts !! i = Some t -> <[i := t']> ts !! i = Some t'.
Proof. intros H. apply list_lookup_insert_eq. apply lookup_lt_is_Some_1. by eexists. Qed.

Lemma thread_insert_ready (s : sys) (i : nat) (c : PiiWaitCondition) (t' : tstate) :
  ready_at s i = true -> thread {| obj := c; threads := <[i := t']> (threads s) |} i = Some t'.
Proof.
  unfold ready_at, thread. simpl. destruct (threads s !! i) eqn:E; [|done].
  intros _. by eapply lookup_insert_self.
Qed.

(** A run of [wait] calls, each finding a pending signal. *)
Lemma waits_fast (s : sys) (ws : list (nat * Z)) :
  Forall (fun w => ready_at s w.1 = true) ws ->
  Z.of_nat (length ws) <= _iWakeSignals (obj s) < uint_modulus ->
  exists s', run s (waits ws) = Some s' /\
    obj s' = {| _bQueue := _bQueue (obj s); _iWaiters := _iWaiters (obj s);
                _iWakeSignals := _iWakeSignals (obj s) - Z.of_nat (length ws) |} /\
    (forall j, ready_at s j = true -> ready_at s' j = true).
Proof.
  revert s. induction ws as [|[i tm] ws IH]; intros s Hr Hp.
  - exists s. simpl. split; [done|]. split; [|done].
    destruct s as [[b w p] ts]. simpl. do 2 f_equal. lia.
  - apply Forall_cons in Hr as [Hi Hr]. simpl in Hi.
    cbn [length] in Hp |- *. rewrite Nat2Z.inj_succ in Hp |- *.
    set (s1 := {| obj := {| _bQueue := _bQueue (obj s); _iWaiters := _iWaiters (obj s);
                            _iWakeSignals := _iWakeSignals (obj s) - 1 |};
                  threads := <[i := TDone true]> (threads s) |}).
    destruct (IH s1) as (s' & Hrun & Hobj & Hready).
    + eapply Forall_impl; [apply Hr|]. intros [i' tm'] Hr'. simpl in Hr' |- *.
      by apply ready_at_insert_done.
    + simpl. lia.
    + exists s'. split; [|split].
      * change (waits ((i, tm) :: ws)) with (EWait i tm :: waits ws). cbn [run].
        rewrite (wait_enter_fast s i tm Hi) by lia. apply Hrun.
      * rewrite Hobj. unfold s1. cbn [obj _bQueue _iWaiters _iWakeSignals]. f_equal. lia.
      * intros j Hj. apply Hready. by apply ready_at_insert_done.
Qed.

(** * Properties *)

(** C1. A default-constructed object ([PiiWaitCondition c;]) is in
    [NoQueue] mode, the declared default argument, and not in the [Queue]
    mode that the class documentation calls the default. *)
Theorem default_construct_is_NoQueue :
  queueMode construct_default = NoQueue /\ queueMode construct_default <> Queue.
Proof. split; [reflexivity|discriminate]. Qed.

(** C4. [wakeAll] is always enabled and leaves no pending signal, in
    either mode and whatever was pending; the mode is unchanged. *)
Theorem wakeAll_clears_pending (s : sys) :
  exists s', step s EWakeAll = Some s' /\ queueLength (obj s') = 0 /\
             queueMode (obj s') = queueMode (obj s).
Proof. eexists. split; [reflexivity|]. split; reflexivity. Qed.

(** C5. A [wait] call that finds a pending signal consumes exactly one,
    leaves [waiterCount] alone and returns [true] in the same step: the
    thread never goes through the suspended state. *)
Theorem wait_with_pending_returns_at_once (s : sys) (i : nat) (time : Z) :
  wc_wf (obj s) -> ready_at s i = true -> 0 < queueLength (obj s) ->
  step s (EWait i time) =
  Some {| obj := {| _bQueue := _bQueue (obj s); _iWaiters := waiterCount (obj s);
                    _iWakeSignals := queueLength (obj s) - 1 |};
          threads := <[i := TDone true]> (threads s) |}.
Proof.
  unfold wc_wf, queueLength, waiterCount. intros Hwf Hr Hp.
  apply wait_enter_fast; [done|lia].
Qed.

Lemma wait_with_pending_returns_at_once_witness :
  step {| obj := mkWC true 0 2; threads := [TIdle; TIdle] |} (EWait 1 50) =
  Some {| obj := mkWC true 0 1; threads := [TIdle; TDone true] |}.
Proof.
  apply (wait_with_pending_returns_at_once
           {| obj := mkWC true 0 2; threads := [TIdle; TIdle] |} 1 50);
    [unfold wc_wf, uint_modulus; simpl; lia | reflexivity | simpl; lia].
Defined.

(** C2, as amended.  In [Queue] mode, starting with an empty queue and no
    waiter, [k < 2^32] calls of [wakeOne] leave [queueLength() = k]; then
    the [m]-th of the next [k] calls of [wait] (by any threads not inside
    [wait]) returns [true] at once and takes the queue from [k - m] to
    [k - m - 1]; after these [k] calls the next [wait] blocks. *)
Theorem queue_mode_counts_signals (s : sys) (k : nat) (ws : list (nat * Z)) (j : nat) (tmj : Z) :
  queueMode (obj s) = Queue -> waiterCount (obj s) = 0 -> queueLength (obj s) = 0 ->
  Z.of_nat k < uint_modulus -> length ws = k ->
  Forall (fun w => ready_at s w.1 = true) ws -> ready_at s j = true ->
  exists s1, run s (repeat (EWakeOne None) k) = Some s1 /\
    queueLength (obj s1) = Z.of_nat k /\ waiterCount (obj s1) = 0 /\
    (forall m i tm, ws !! m = Some (i, tm) ->
       exists s2 s3, run s1 (waits (take m ws)) = Some s2 /\
         queueLength (obj s2) = Z.of_nat k - Z.of_nat m /\
         step s2 (EWait i tm) = Some s3 /\ thread s3 i = Some (TDone true) /\
         queueLength (obj s3) = Z.of_nat k - Z.of_nat m - 1 /\ waiterCount (obj s3) = 0) /\
    (exists s4 s5, run s1 (waits ws) = Some s4 /\ queueLength (obj s4) = 0 /\
       step s4 (EWait j tmj) = Some s5 /\ thread s5 j = Some (TBlocked (to_ulong tmj)) /\
       waiterCount (obj s5) = 1).
Proof.
  unfold queueMode, queueLength, waiterCount. intros Hq Hw Hp Hk Hlen Hr Hj.
  destruct s as [[b w p] ts]. cbn [obj _bQueue _iWaiters _iWakeSignals] in *.
  subst w p. assert (b = true) as -> by (destruct b; congruence).
  set (s0 := {| obj := {| _bQueue := true; _iWaiters := 0; _iWakeSignals := 0 |}; threads := ts |}).
  set (s1 := {| obj := {| _bQueue := true; _iWaiters := 0;
                          _iWakeSignals := (0 + Z.of_nat k) mod uint_modulus |}; threads := ts |}).
  assert (Hk' : (0 + Z.of_nat k) mod uint_modulus = Z.of_nat k) by (rewrite Z.mod_small; lia).
  assert (Hr1 : forall i, ready_at s0 i = true -> ready_at s1 i = true) by done.
  exists s1. split; [apply wakes_queue; unfold uint_modulus; [done|lia]|].
  split; [exact Hk'|]. split; [done|]. split.
  - intros m i tm Hm.
    assert (Hmk : (m < k)%nat) by (subst k; apply lookup_lt_is_Some_1; by eexists).
    destruct (waits_fast s1 (take m ws)) as (s2 & Hrun & Hobj & Hready).
    + apply Forall_take. eapply Forall_impl; [apply Hr|]. intros w' Hw'. by apply Hr1.
    + unfold s1. cbn [obj _iWakeSignals]. rewrite Hk', length_take. lia.
    + assert (Hi : ready_at s2 i = true).
      { apply Hready, Hr1. apply (Forall_lookup_1 _ _ _ _ Hr Hm). }
      rewrite length_take, Nat.min_l in Hobj by lia.
      unfold s1 in Hobj. cbn [obj _bQueue _iWaiters _iWakeSignals] in Hobj. rewrite Hk' in Hobj.
      exists s2. eexists. split; [exact Hrun|]. rewrite Hobj. cbn [_iWakeSignals _iWaiters].
      split; [done|]. rewrite (wait_enter_fast s2 i tm Hi) by (rewrite Hobj; simpl; lia).
      split; [reflexivity|]. rewrite Hobj. cbn [obj threads _iWakeSignals _iWaiters thread].
      split; [|split; [done|lia]].
      unfold ready_at, thread in Hi. destruct (threads s2 !! i) eqn:E; [|done].
      by eapply lookup_insert_self.
  - destruct (waits_fast s1 ws) as (s4 & Hrun & Hobj & Hready).
    + eapply Forall_impl; [apply Hr|]. intros w' Hw'. by apply Hr1.
    + unfold s1. cbn [obj _iWakeSignals]. rewrite Hk'. lia.
    + unfold s1 in Hobj. cbn [obj _bQueue _iWaiters _iWakeSignals] in Hobj.
      rewrite Hk', Hlen, Z.sub_diag in Hobj.
      assert (Hj4 : ready_at s4 j = true) by (apply Hready, Hr1, Hj).
      exists s4. eexists. split; [exact Hrun|]. rewrite Hobj. split; [done|].
      rewrite (wait_enter_block s4 j tmj Hj4) by (rewrite Hobj; done).
      split; [reflexivity|]. cbn [thread threads obj _iWaiters]. rewrite Hobj.
      split; [|done].
      unfold ready_at, thread in Hj4. destruct (threads s4 !! j) eqn:E; [|done].
      by eapply lookup_insert_self.
Qed.

Lemma queue_mode_counts_signals_witness :
  exists s1, run (init Queue 2) (repeat (EWakeOne None) 2) = Some s1 /\
    queueLength (obj s1) = Z.of_nat 2 /\ waiterCount (obj s1) = 0 /\
    (forall m i tm, [(0%nat, ULONG_MAX); (1%nat, 10)] !! m = Some (i, tm) ->
       exists s2 s3, run s1 (waits (take m [(0%nat, ULONG_MAX); (1%nat, 10)])) = Some s2 /\
         queueLength (obj s2) = Z.of_nat 2 - Z.of_nat m /\
         step s2 (EWait i tm) = Some s3 /\ thread s3 i = Some (TDone true) /\
         queueLength (obj s3) = Z.of_nat 2 - Z.of_nat m - 1 /\ waiterCount (obj s3) = 0) /\
    (exists s4 s5, run s1 (waits [(0%nat, ULONG_MAX); (1%nat, 10)]) = Some s4 /\
       queueLength (obj s4) = 0 /\ step s4 (EWait 0 10) = Some s5 /\
       thread s5 0 = Some (TBlocked (to_ulong 10)) /\ waiterCount (obj s5) = 1).
Proof.
  apply (queue_mode_counts_signals (init Queue 2) 2 [(0%nat, ULONG_MAX); (1%nat, 10)] 0 10);
    try reflexivity; repeat constructor.
Defined.

(** C2 fails for [k = 2^32]: the [unsigned int] counter wraps, so after
    [2^32] signals [queueLength()] is 0 and the first [wait] blocks. *)
Lemma queue_mode_counts_signals_wraps :
  exists s1 s2,
    run (init Queue 1) (repeat (EWakeOne None) (Z.to_nat uint_modulus)) = Some s1 /\
    waiterCount (obj s1) = 0 /\ queueLength (obj s1) = 0 /\
    queueLength (obj s1) <> Z.of_nat (Z.to_nat uint_modulus) /\
    step s1 (EWait 0 ULONG_MAX) = Some s2 /\ thread s2 0 = Some (TBlocked ULONG_MAX).
Proof.
  pose proof (wakes_queue true 0 [TIdle] (Z.to_nat uint_modulus) eq_refl) as H.
  rewrite Z2Nat.id, Z.add_0_l, Z_mod_same_full in H by (unfold uint_modulus; lia).
  change (init Queue 1) with
    {| obj := {| _bQueue := true; _iWaiters := 0; _iWakeSignals := 0 |}; threads := [TIdle] |}.
  rewrite H by (unfold uint_modulus; lia).
  rewrite Z2Nat.id by (unfold uint_modulus; lia).
  do 2 eexists. split; [reflexivity|]. cbn [obj waiterCount queueLength _iWaiters _iWakeSignals].
  split; [done|]. split; [done|]. split; [unfold uint_modulus; lia|].
  split; [reflexivity|]. reflexivity.
Qed.

(** C9, as amended.  In [Queue] mode a [wakeOne] with no waiter counted
    sets [pendingSignals] to [(pendingSignals + 1) mod 2^32]: one more
    below [UINT_MAX], and back to 0 from [UINT_MAX]. *)
Theorem queue_wakeOne_increments_mod (s s' : sys) (pick : option nat) :
  wc_wf (obj s) -> queueMode (obj s) = Queue -> waiterCount (obj s) = 0 ->
  step s (EWakeOne pick) = Some s' ->
  queueLength (obj s') = (queueLength (obj s) + 1) mod uint_modulus /\
  (queueLength (obj s) < UINT_MAX -> queueLength (obj s') = queueLength (obj s) + 1) /\
  (queueLength (obj s) = UINT_MAX -> queueLength (obj s') = 0).
Proof.
  unfold wc_wf, queueMode, queueLength. intros Hwf Hq Hw H.
  rewrite wakeOne_no_waiter in H by done. injection H as <-.
  cbn [obj _iWakeSignals]. destruct (_bQueue (obj s)); [|discriminate].
  unfold uint_incr, UINT_MAX in *. split; [done|]. split.
  - intros Hlt. apply Z.mod_small. lia.
  - intros ->. rewrite Z.sub_add. apply Z_mod_same_full.
Qed.

Lemma queue_wakeOne_increments_mod_witness :
  queueLength (obj {| obj := mkWC true 0 UINT_MAX; threads := [] |}) = UINT_MAX /\
  exists s', step {| obj := mkWC true 0 UINT_MAX; threads := [] |} (EWakeOne None) = Some s' /\
    queueLength (obj s') = 0.
Proof.
  split; [reflexivity|]. eexists. split; [reflexivity|].
  apply (queue_wakeOne_increments_mod {| obj := mkWC true 0 UINT_MAX; threads := [] |} _ None);
    [unfold wc_wf, UINT_MAX, uint_modulus; simpl; lia | reflexivity | reflexivity | reflexivity | reflexivity].
Defined.

(** C9 fails at [UINT_MAX] pending signals: the next [wakeOne] with no
    waiter does not increase [pendingSignals] but resets it to 0. *)
Lemma queue_wakeOne_unbounded_fails :
  exists s1 s2,
    run (init Queue 0) (repeat (EWakeOne None) (Z.to_nat UINT_MAX)) = Some s1 /\
    waiterCount (obj s1) = 0 /\ queueLength (obj s1) = UINT_MAX /\
    step s1 (EWakeOne None) = Some s2 /\ queueLength (obj s2) = 0.
Proof.
  pose proof (wakes_queue true 0 [] (Z.to_nat UINT_MAX) eq_refl) as H.
  rewrite Z2Nat.id, Z.add_0_l, Z.mod_small in H by (unfold UINT_MAX, uint_modulus; lia).
  change (init Queue 0) with
    {| obj := {| _bQueue := true; _iWaiters := 0; _iWakeSignals := 0 |}; threads := [] |}.
  rewrite H by (unfold uint_modulus; lia).
  do 2 eexists. split; [reflexivity|]. cbn [obj waiterCount queueLength _iWaiters _iWakeSignals].
  split; [done|]. split; [done|]. split; [reflexivity|]. reflexivity.
Qed.

(** C3. In [NoQueue] mode at most one signal is ever pending, and
    [k >= 1] consecutive [wakeOne] calls with no waiter leave
    [queueLength() = 1]: the next [wait] returns [true] at once and the
    one after it blocks. *)
Theorem noqueue_signals_collapse :
  (forall s, reachable NoQueue s -> 0 <= queueLength (obj s) <= 1) /\
  (forall s k i j tm1 tm2,
     reachable NoQueue s -> waiterCount (obj s) = 0 -> (1 <= k)%nat ->
     ready_at s i = true -> ready_at s j = true ->
     exists s1 s2 s3,
       run s (repeat (EWakeOne None) k) = Some s1 /\ queueLength (obj s1) = 1 /\
       step s1 (EWait i tm1) = Some s2 /\ thread s2 i = Some (TDone true) /\
       queueLength (obj s2) = 0 /\
       step s2 (EWait j tm2) = Some s3 /\ thread s3 j = Some (TBlocked (to_ulong tm2))).
Proof.
  split.
  - intros s Hs. pose proof (reachable_mode _ _ Hs) as Hm.
    destruct (reachable_inv _ _ Hs) as (_ & Hb & _). unfold queueMode in Hm.
    apply Hb. destruct (_bQueue (obj s)); congruence.
  - intros s k i j tm1 tm2 Hs Hw Hk Hi Hj.
    pose proof (reachable_mode _ _ Hs) as Hm.
    destruct (reachable_inv _ _ Hs) as (_ & Hb & _).
    destruct s as [[b w p] ts]. unfold queueMode, waiterCount, noqueue_bound in *.
    cbn [obj _bQueue _iWaiters _iWakeSignals] in *. subst w.
    assert (b = false) as -> by (destruct b; congruence).
    specialize (Hb eq_refl).
    set (s1 := {| obj := {| _bQueue := false; _iWaiters := 0; _iWakeSignals := 1 |};
                  threads := ts |}).
    assert (Hi1 : ready_at s1 i = true) by exact Hi.
    assert (Hj1 : ready_at s1 j = true) by exact Hj.
    exists s1. do 2 eexists.
    split; [by apply wakes_noqueue|]. split; [done|].
    split; [rewrite (wait_enter_fast s1 i tm1 Hi1) by (simpl; unfold uint_modulus; lia); reflexivity|].
    split; [apply (thread_insert_ready s1 i _ _ Hi1)|].
    split; [done|].
    rewrite wait_enter_block; [split; [reflexivity|]| |done].
    + apply (thread_insert_ready
               {| obj := obj s1; threads := <[i:=TDone true]> (threads s1) |} j _ _).
      by apply ready_at_insert_done.
    + by apply ready_at_insert_done.
Qed.

Lemma noqueue_signals_collapse_witness :
  exists s1 s2 s3,
    run (init NoQueue 1) (repeat (EWakeOne None) 3%nat) = Some s1 /\ queueLength (obj s1) = 1 /\
    step s1 (EWait 0 ULONG_MAX) = Some s2 /\ thread s2 0 = Some (TDone true) /\
    queueLength (obj s2) = 0 /\
    step s2 (EWait 0 10) = Some s3 /\ thread s3 0 = Some (TBlocked (to_ulong 10)).
Proof.
  apply (proj2 noqueue_signals_collapse (init NoQueue 1) 3%nat 0%nat 0%nat ULONG_MAX 10);
    [exists 1%nat, []; reflexivity | reflexivity | lia | reflexivity | reflexivity].
Defined.

(** C6.  [waiterCount] also counts a thread whose bound has elapsed but
    which has not yet reacquired the mutex.  Thread 0 calls [wait(50)] and
    times out; before it resumes, a [wakeOne] finds [waiterCount() = 1],
    so it goes to the notify-one branch, where no thread is suspended: the
    call releases no thread and records no signal, and thread 0 then
    returns [false]. *)
Theorem wakeOne_with_waiter_releases_none :
  exists s s',
    run (init Queue 1) [EWait 0 50; ETimeout 0] = Some s /\
    waiterCount (obj s) = 1 /\ no_blocked (threads s) = true /\ queueLength (obj s) = 0 /\
    step s (EWakeOne None) = Some s /\
    (forall pick s1, step s (EWakeOne pick) = Some s1 -> s1 = s) /\
    step s (EResume 0) = Some s' /\ thread s' 0 = Some (TDone false) /\
    queueLength (obj s') = 0 /\ waiterCount (obj s') = 0.
Proof.
  do 2 eexists. split; [reflexivity|].
  do 4 (split; [reflexivity|]).
  split; [|split; [reflexivity|]; repeat split; reflexivity].
  intros [[|j]|] s1 H; vm_compute in H; try discriminate; injection H as <-; reflexivity.
Qed.

(** C8.  A signal is lost when it arrives between the release of the only
    waiter and the waiter's own decrement of [waiterCount].  Thread 0
    blocks in [wait()]; a first [wakeOne] releases it; a second [wakeOne],
    issued while no thread is suspended, still finds [waiterCount() = 1]
    and is neither delivered nor remembered, even in [Queue] mode.
    Thread 0 returns [true] once, and its next [wait()] blocks with
    [queueLength() = 0]: two signals, one return. *)
Theorem wakeOne_lost_before_waiter_resumes :
  exists s2 s3 s5,
    run (init Queue 1) [EWait 0 ULONG_MAX; EWakeOne (Some 0%nat)] = Some s2 /\
    waiterCount (obj s2) = 1 /\ no_blocked (threads s2) = true /\
    step s2 (EWakeOne None) = Some s3 /\ queueLength (obj s3) = 0 /\
    (forall pick s, step s2 (EWakeOne pick) = Some s -> s = s3) /\
    run s3 [EResume 0; EWait 0 ULONG_MAX] = Some s5 /\
    thread s5 0 = Some (TBlocked ULONG_MAX) /\ queueLength (obj s5) = 0 /\
    step s5 (ETimeout 0) = None.
Proof.
  do 3 eexists. split; [reflexivity|].
  do 4 (split; [reflexivity|]).
  split; [|repeat split; reflexivity].
  intros [[|j]|] s H; vm_compute in H; try discriminate; injection H as <-; reflexivity.
Qed.

(** ** Where a thread's state inside [wait] comes from *)

(** A thread is released only by a wake call, from the suspended state. *)
Lemma step_woken_cause (s s' : sys) (e : event) (i : nat) (tm : Z) :
  step s e = Some s' -> thread s' i = Some (TWoken tm) ->
  thread s i = Some (TWoken tm) \/
  ((e = EWakeAll \/ e = EWakeOne (Some i)) /\ thread s i = Some (TBlocked tm)).
Proof.
  unfold thread. intros H Hj. unfold_step.
  destruct e; repeat case_match; simplify_eq/=;
    rewrite ?lookup_release_all, ?list_lookup_insert_Some in Hj;
    try (destruct (threads s !! i) as [[]|] eqn:?; simplify_eq/=);
    naive_solver.
Qed.

(** A thread times out only from the suspended state, and only when its
    bound is not [ULONG_MAX]. *)
Lemma step_timedout_cause (s s' : sys) (e : event) (i : nat) (tm : Z) :
  step s e = Some s' -> thread s' i = Some (TTimedOut tm) ->
  thread s i = Some (TTimedOut tm) \/
  (e = ETimeout i /\ thread s i = Some (TBlocked tm) /\ tm <> ULONG_MAX).
Proof.
  unfold thread. intros H Hj. unfold_step.
  destruct e; repeat case_match; simplify_eq/=;
    rewrite ?lookup_release_all, ?list_lookup_insert_Some in Hj;
    try (destruct (threads s !! i) as [[]|] eqn:?; simplify_eq/=);
    try match goal with Hx : Z.eqb _ _ = false |- _ => apply Z.eqb_neq in Hx end;
    naive_solver.
Qed.

(** The events at which thread [i] can come out of [wait]: its own call
    (the path that finds a pending signal) and its own resumption. *)
Definition returns_in (e : event) (i : nat) : bool :=
  match e with
  | EWait j _ | EResume j => Nat.eqb i j
  | _ => false
  end.

Lemma wait_return_value (mode : QueueMode) (s s' : sys) (e : event) (i : nat) (b : bool) :
  reachable mode s -> step s e = Some s' -> returns_in e i = true ->
  thread s' i = Some (TDone b) ->
  (b = true <-> (exists tm, e = EWait i tm /\ 0 < queueLength (obj s)) \/
                (e = EResume i /\ exists tm, thread s i = Some (TWoken tm))) /\
  (b = false <-> e = EResume i /\
                 exists tm, thread s i = Some (TTimedOut tm) /\ tm <> ULONG_MAX).
Proof.
  intros Hs H Hr Hd. destruct (reachable_inv _ _ Hs) as (_ & _ & Ht).
  unfold timeouts_bounded, thread, queueLength in *.
  destruct e as [j tm| | | | |j]; simpl in Hr; try discriminate;
    apply Nat.eqb_eq in Hr; subst j; unfold_step.
  - destruct (threads s !! i) as [t|] eqn:E; [|discriminate].
    destruct (ready t); [|discriminate].
    destruct (0 <? _iWakeSignals (obj s)) eqn:Hp; simplify_eq/=;
      rewrite list_lookup_insert_Some in Hd; [|naive_solver].
    apply Z.ltb_lt in Hp.
    assert (b = true) as -> by naive_solver.
    split; split; intros; try naive_solver; discriminate.
  - destruct (threads s !! i) as [[]|] eqn:E; simplify_eq/=;
      rewrite list_lookup_insert_Some in Hd.
    + assert (b = true) as -> by naive_solver.
      split; split; intros; try naive_solver; discriminate.
    + assert (b = false) as -> by naive_solver.
      pose proof (Ht i time E).
      split; split; intros; try naive_solver; discriminate.
Qed.

(** C7.  [wait] returns a [bool]: it comes out with [true] exactly when it
    consumed a pending signal or was released, and a thread is released
    only by [wakeOne] or [wakeAll]; it comes out with [false] exactly when
    its bound elapsed, which happens only from the suspended state and
    never for the bound [ULONG_MAX]. *)
Theorem wait_returns_true_iff_woken :
  (forall mode s s' e i b,
     reachable mode s -> step s e = Some s' -> returns_in e i = true ->
     thread s' i = Some (TDone b) ->
     (b = true <-> (exists tm, e = EWait i tm /\ 0 < queueLength (obj s)) \/
                   (e = EResume i /\ exists tm, thread s i = Some (TWoken tm))) /\
     (b = false <-> e = EResume i /\
                    exists tm, thread s i = Some (TTimedOut tm) /\ tm <> ULONG_MAX)) /\
  (forall s s' e i tm,
     step s e = Some s' -> thread s' i = Some (TWoken tm) ->
     thread s i = Some (TWoken tm) \/
     ((e = EWakeAll \/ e = EWakeOne (Some i)) /\ thread s i = Some (TBlocked tm))) /\
  (forall s s' e i tm,
     step s e = Some s' -> thread s' i = Some (TTimedOut tm) ->
     thread s i = Some (TTimedOut tm) \/
     (e = ETimeout i /\ thread s i = Some (TBlocked tm) /\ tm <> ULONG_MAX)).
Proof.
  split; [exact wait_return_value|].
  split; [exact step_woken_cause|exact step_timedout_cause].
Qed.

Lemma wait_returns_true_iff_woken_witness :
  let s := {| obj := mkWC true 1 0; threads := [TWoken 50] |} in
  (true = true <-> (exists tm, EResume 0 = EWait 0 tm /\ 0 < queueLength (obj s)) \/
                   (EResume 0 = EResume 0 /\ exists tm, thread s 0 = Some (TWoken tm))) /\
  (true = false <-> EResume 0 = EResume 0 /\
                    exists tm, thread s 0 = Some (TTimedOut tm) /\ tm <> ULONG_MAX).
Proof.
  intros s.
  apply (proj1 wait_returns_true_iff_woken Queue s
           {| obj := mkWC true 0 0; threads := [TDone true] |} (EResume 0) 0%nat true);
    [exists 1%nat, [EWait 0 50; EWakeOne (Some 0%nat)] | | |]; reflexivity.
Defined.

(** C10.  The argument of [wait] is an [unsigned long]: whatever integer
    the caller passes arrives in [0 .. ULONG_MAX] (a [-1] arrives as
    [ULONG_MAX]).  A thread suspended with [ULONG_MAX] can never time
    out, while any smaller bound can: [ULONG_MAX] always means "forever"
    and the longest bounded wait is [ULONG_MAX - 1] milliseconds. *)
Theorem ulong_max_means_forever :
  (forall x : Z, 0 <= to_ulong x <= ULONG_MAX) /\
  to_ulong ULONG_MAX = ULONG_MAX /\ to_ulong (-1) = ULONG_MAX /\
  (forall s i x s' tm, step s (EWait i x) = Some s' -> thread s' i = Some (TBlocked tm) ->
     0 <= tm <= ULONG_MAX) /\
  (forall s i, thread s i = Some (TBlocked ULONG_MAX) -> step s (ETimeout i) = None) /\
  (forall s i tm, thread s i = Some (TBlocked tm) -> tm <> ULONG_MAX ->
     exists s', step s (ETimeout i) = Some s').
Proof.
  assert (Hr : forall x, 0 <= to_ulong x <= ULONG_MAX).
  { intros x. unfold to_ulong, ULONG_MAX.
    pose proof (Z.mod_pos_bound x ulong_modulus ltac:(unfold ulong_modulus; lia)). lia. }
  split; [exact Hr|]. split; [reflexivity|]. split; [reflexivity|]. split; [|split].
  - intros s i x s' tm H Hi. unfold thread in Hi. unfold_step.
    repeat case_match; simplify_eq/=;
      apply list_lookup_insert_Some in Hi as [(_ & Heq & _)|(Hne & _)]; try done.
    injection Heq as <-. apply Hr.
  - intros s i Hi. unfold thread in Hi. simpl. unfold timeout. rewrite Hi. done.
  - intros s i tm Hi Hne. unfold thread in Hi. simpl. unfold timeout. rewrite Hi.
    apply Z.eqb_neq in Hne. rewrite Hne. by eexists.
Qed.

Lemma ulong_max_means_forever_witness :
  step {| obj := mkWC false 1 0; threads := [TBlocked ULONG_MAX] |} (ETimeout 0) = None.
Proof.
  apply (proj1 (proj2 (proj2 (proj2 (proj2 ulong_max_means_forever))))). reflexivity.
Defined.

(** ** The waiter counter *)

(** A thread between its [++_iWaiters] and its [--_iWaiters]. *)
Definition in_wait (t : tstate) : bool :=
  match t with TBlocked _ | TWoken _ | TTimedOut _ => true | _ => false end.

Fixpoint waiting (ts : list tstate) : nat :=
  match ts with
  | [] => 0
  | t :: ts' => ((if in_wait t then 1 else 0) + waiting ts')%nat
  end.

Lemma waiting_insert (ts : list tstate) (i : nat) (t t' : tstate) :
  ts !! i = Some t ->
  (waiting (<[i := t']> ts) + (if in_wait t then 1 else 0) =
   waiting ts + (if in_wait t' then 1 else 0))%nat.
Proof.
  revert i. induction ts as [|x ts IH]; intros [|i] H; simpl in *; try discriminate.
  - injection H as ->. lia.
  - specialize (IH i H). lia.
Qed.

Lemma waiting_le (ts : list tstate) : (waiting ts <= length ts)%nat.
Proof. induction ts as [|t ts IH]; simpl; [lia|]. destruct (in_wait t); lia. Qed.

Lemma waiting_release_all (ts : list tstate) : waiting (release_all ts) = waiting ts.
Proof. induction ts as [|t ts IH]; [done|]. simpl in *. rewrite IH. by destruct t. Qed.

Lemma waiting_pos (ts : list tstate) (i : nat) (t : tstate) :
  ts !! i = Some t -> in_wait t = true -> (1 <= waiting ts)%nat.
Proof.
  intros H Hw. pose proof (waiting_insert ts i t TIdle H) as E. rewrite Hw in E. simpl in E. lia.
Qed.

Lemma length_step (s s' : sys) (e : event) :
  step s e = Some s' -> length (threads s') = length (threads s).
Proof.
  intros H. unfold_step. destruct e; repeat case_match; simplify_eq/=;
    rewrite ?length_insert; try done. unfold release_all. by rewrite length_fmap.
Qed.

(** The counter invariant: [_iWaiters] counts the threads inside [wait],
    and no signal is pending while one of them is counted. *)
Definition waiters_inv (s : sys) : Prop :=
  _iWaiters (obj s) = Z.of_nat (waiting (threads s)) /\
  (_iWakeSignals (obj s) = 0 \/ waiting (threads s) = 0%nat).

Lemma step_waiters_inv (s s' : sys) (e : event) :
  Z.of_nat (length (threads s)) < uint_modulus -> wc_wf (obj s) ->
  waiters_inv s -> step s e = Some s' -> waiters_inv s'.
Proof.
  unfold waiters_inv, wc_wf. intros Hlen Hwf [Hw Hp] H. pose proof (waiting_le (threads s)) as Hle.
  unfold_step. destruct e as [i tm|[j|]| |i|i|i].
  - destruct (threads s !! i) as [t|] eqn:E; [|discriminate].
    destruct (ready t) eqn:Hr; [|discriminate].
    assert (in_wait t = false) as Ht by (destruct t; simpl in *; congruence).
    destruct (0 <? _iWakeSignals (obj s)) eqn:Hq; simplify_eq/=.
    + apply Z.ltb_lt in Hq.
      pose proof (waiting_insert _ _ _ (TDone true) E) as Ec. rewrite Ht in Ec. simpl in Ec.
      split; [lia|]. right. lia.
    + apply Z.ltb_ge in Hq.
      pose proof (waiting_insert _ _ _ (TBlocked (to_ulong tm)) E) as Ec.
      rewrite Ht in Ec. simpl in Ec.
      pose proof (waiting_le (<[i := TBlocked (to_ulong tm)]> (threads s))) as Hle'.
      rewrite length_insert in Hle'.
      split; [|left; lia]. unfold uint_incr. rewrite Z.mod_small by lia. lia.
  - destruct (Z.eqb_spec (_iWaiters (obj s)) 0) as [Hz|Hz]; simplify_eq/=.
    + split; [lia|]. right. lia.
    + destruct (threads s !! j) as [[]|] eqn:E; simplify_eq/=.
      pose proof (waiting_insert _ _ _ (TWoken time) E) as Ec. simpl in Ec.
      split; [lia|]. destruct Hp; [left|right]; lia.
  - destruct (Z.eqb_spec (_iWaiters (obj s)) 0) as [Hz|Hz]; simplify_eq/=.
    + split; [lia|]. right. lia.
    + destruct (no_blocked (threads s)); simplify_eq/=. done.
  - simplify_eq/=. rewrite waiting_release_all. split; [lia|left; done].
  - destruct (threads s !! i) as [[]|] eqn:E; simplify_eq/=.
    destruct (Z.eqb time ULONG_MAX); simplify_eq/=.
    pose proof (waiting_insert _ _ _ (TTimedOut time) E) as Ec. simpl in Ec. lia.
  - destruct (threads s !! i) as [[]|] eqn:E; simplify_eq/=. done.
  - destruct (threads s !! i) as [t|] eqn:E; [|discriminate].
    assert (Hin : forall t', (t' = TDone true \/ t' = TDone false) ->
              in_wait t = true ->
              waiters_inv {| obj := {| _bQueue := _bQueue (obj s);
                                       _iWaiters := uint_decr (_iWaiters (obj s));
                                       _iWakeSignals := _iWakeSignals (obj s) |};
                             threads := <[i := t']> (threads s) |}).
    { intros t' Ht' Hiw. pose proof (waiting_pos _ _ _ E Hiw).
      pose proof (waiting_insert _ _ _ t' E) as Ec. rewrite Hiw in Ec.
      destruct Ht' as [->| ->]; simpl in Ec; unfold waiters_inv; cbn [obj threads _iWaiters _iWakeSignals];
        (split; [unfold uint_decr; rewrite Z.mod_small by lia; lia|]);
        destruct Hp; [left; done| lia | left; done | lia]. }
    destruct t; simplify_eq/=; apply Hin; auto.
Qed.

Lemma run_waiters_inv (s s' : sys) (es : list event) :
  Z.of_nat (length (threads s)) < uint_modulus -> inv s -> waiters_inv s ->
  run s es = Some s' -> waiters_inv s'.
Proof.
  revert s. induction es as [|e es IH]; intros s Hlen Hi Hw H; simpl in H; [by simplify_eq|].
  destruct (step s e) as [s1|] eqn:E; [|done].
  apply (IH s1); [| |exact (step_waiters_inv s s1 e Hlen (proj1 Hi) Hw E)|done].
  - by rewrite (length_step _ _ _ E).
  - by apply (run_inv s s1 [e]); [|simpl; rewrite E].
Qed.

Lemma reachable_waiters_inv (mode : QueueMode) (s : sys) :
  reachable mode s -> Z.of_nat (length (threads s)) < uint_modulus -> waiters_inv s.
Proof.
  intros (n & es & H) Hlen.
  assert (Hl : length (threads s) = length (threads (init mode n))).
  { clear Hlen. revert H. generalize (init mode n). induction es as [|e es IH]; intros s0 H;
      simpl in H; [by simplify_eq|].
    destruct (step s0 e) as [s1|] eqn:E; [|done]. rewrite (IH s1 H). by apply length_step in E. }
  apply (run_waiters_inv (init mode n) s es); [by rewrite <- Hl|apply init_inv| |done].
  unfold waiters_inv. simpl. clear. induction n as [|n IH]; simpl; [lia|].
  destruct IH as [IH _]. split; [lia|left; done].
Qed.

(** [waiterCount()] is the number of threads between entering and leaving
    the blocking part of [wait] (suspended, released, or timed out and not
    yet holding the mutex), as long as fewer than [2^32] threads share the
    object. *)
Theorem waiterCount_counts_threads_in_wait (mode : QueueMode) (s : sys) :
  reachable mode s -> Z.of_nat (length (threads s)) < uint_modulus ->
  waiterCount (obj s) = Z.of_nat (waiting (threads s)).
Proof. intros Hs Hl. apply (reachable_waiters_inv mode s Hs Hl). Qed.

Lemma waiterCount_counts_threads_in_wait_witness :
  exists s, run (init Queue 3) [EWait 0 ULONG_MAX; EWait 2 10] = Some s /\
    waiterCount (obj s) = Z.of_nat (waiting (threads s)) /\ waiterCount (obj s) = 2.
Proof.
  eexists. split; [reflexivity|]. split; [|reflexivity].
  apply (waiterCount_counts_threads_in_wait Queue);
    [exists 3%nat, [EWait 0 ULONG_MAX; EWait 2 10]; reflexivity | vm_compute; reflexivity].
Defined.

(** No signal is ever queued while a thread is counted as waiting: at
    every observation point [queueLength() = 0] or [waiterCount() = 0]
    (fewer than [2^32] threads). *)
Theorem no_pending_signal_while_waiting (mode : QueueMode) (s : sys) :
  reachable mode s -> Z.of_nat (length (threads s)) < uint_modulus ->
  queueLength (obj s) = 0 \/ waiterCount (obj s) = 0.
Proof.
  intros Hs Hl. destruct (reachable_waiters_inv mode s Hs Hl) as [Hw [Hp|Hp]].
  - by left.
  - right. unfold waiterCount. rewrite Hw, Hp. done.
Qed.

Lemma no_pending_signal_while_waiting_witness :
  exists s, run (init Queue 2) [EWait 0 ULONG_MAX; EWakeOne (Some 0%nat); EWait 1 10] = Some s /\
    (queueLength (obj s) = 0 \/ waiterCount (obj s) = 0).
Proof.
  eexists. split; [reflexivity|].
  apply (no_pending_signal_while_waiting Queue);
    [exists 2%nat, [EWait 0 ULONG_MAX; EWakeOne (Some 0%nat); EWait 1 10]; reflexivity
    | vm_compute; reflexivity].
Defined.

(** The mode given at construction is what [queueMode()] reports in every
    later state: no operation changes [_bQueue]. *)
Theorem queueMode_fixed_at_construction (mode : QueueMode) (n : nat) (es : list event) (s : sys) :
  run (init mode n) es = Some s -> queueMode (obj s) = mode.
Proof. intros H. apply reachable_mode. by exists n, es. Qed.

Lemma queueMode_fixed_at_construction_witness :
  exists s, run (init Queue 1) [EWakeOne None; EWakeAll; EWait 0 10] = Some s /\
    queueMode (obj s) = Queue.
Proof.
  eexists. split; [reflexivity|].
  apply (queueMode_fixed_at_construction Queue 1 [EWakeOne None; EWakeAll; EWait 0 10]).
  reflexivity.
Defined.

(** * PiiSampleSet (src/modules/classification/lib/PiiSampleSet.h)

    The sample-set functions for [PiiMatrix<T>] delegate to the matrix's
    members.  [PiiMatrix] is not part of the sources: its members are the
    operations of [PiiMatrixOps], and what the functions below rely on is
    stated as [PiiMatrixLaws], a contract on the dimensions only (rows and
    columns after [resize], [reserve] and [appendRow]; [reserve(n)] makes
    room for at least [n] rows). *)

(** [INT_MAX] for a 32-bit [int]. *)
Definition INT_MAX : Z := 2 ^ 31 - 1.

(** Qt's [qBound(min, val, max)], defined as [qMax(min, qMin(max, val))]. *)
Definition qBound (lo v hi : Z) : Z := Z.max lo (Z.min hi v).

Module PiiSampleSet.

Class PiiMatrixOps (M T : Type) := {
  rows : M -> Z;                  (** [int rows() const] *)
  columns : M -> Z;               (** [int columns() const] *)
  capacity : M -> Z;              (** [int capacity() const] *)
  mresize : M -> Z -> Z -> M;     (** [void resize(int rows, int columns)] *)
  mreserve : M -> Z -> M;         (** [void reserve(int rows)] *)
  appendRow : M -> list T -> M    (** [void appendRow(const T* row)] *)
}.

Class PiiMatrixLaws (M T : Type) `{PiiMatrixOps M T} : Prop := {
  rows_resize m r c : 0 <= r -> 0 <= c -> rows (mresize m r c) = r;
  columns_resize m r c : 0 <= r -> 0 <= c -> columns (mresize m r c) = c;
  rows_reserve m n : rows (mreserve m n) = rows m;
  columns_reserve m n : columns (mreserve m n) = columns m;
  capacity_reserve m n : n <= capacity (mreserve m n);
  rows_appendRow m x : rows (appendRow m x) = rows m + 1;
  columns_appendRow m x : columns (appendRow m x) = columns m
}.

Section WithMatrix.
Context {M T : Type} `{PiiMatrixOps M T}.

(** [int sampleCount(const PiiMatrix<T>& samples) { return samples.rows(); }] *)
Definition sampleCount (m : M) : Z := rows m.

(** [int featureCount(const PiiMatrix<T>& samples) { return samples.columns(); }] *)
Definition featureCount (m : M) : Z := columns m.

(** [void resize(PiiMatrix<T>& samples, int sampleCount, int featureCount = -1)]:
    [if (featureCount == -1) featureCount = samples.columns();
     samples.resize(sampleCount, featureCount);] *)
Definition resize (m : M) (sampleCount featureCount : Z) : M :=
  let featureCount := if Z.eqb featureCount (-1) then columns m else featureCount in
  mresize m sampleCount featureCount.

(** [void reserve(PiiMatrix<T>& samples, int sampleCount, int featureCount = -1)]:
    [if (featureCount != -1 && samples.columns() != featureCount)
       samples.resize(0, featureCount);
     samples.reserve(sampleCount);] *)
Definition reserve (m : M) (sampleCount featureCount : Z) : M :=
  let m := if negb (Z.eqb featureCount (-1)) && negb (Z.eqb (columns m) featureCount)
           then mresize m 0 featureCount else m in
  mreserve m sampleCount.

(** The capacity [append] asks for when the set is full:
    [qBound(1, samples.rows()*2, samples.rows()+64)]. *)
Definition append_reserve_size (rows : Z) : Z := qBound 1 (rows * 2) (rows + 64).



End WithMatrix.

(** A matrix reduced to its dimensions; it meets the contract, and the
    examples below run on it. *)
Record dims := mkDims { d_rows : Z; d_cols : Z; d_cap : Z }.

#[global] Instance dims_ops : PiiMatrixOps dims Z := {
  rows := d_rows; columns := d_cols; capacity := d_cap;
  mresize m r c := mkDims r c (Z.max (d_cap m) r);
  mreserve m n := mkDims (d_rows m) (d_cols m) (Z.max (d_cap m) n);
  appendRow m _ := mkDims (d_rows m + 1) (d_cols m) (Z.max (d_cap m) (d_rows m + 1))
}.

#[global] Instance dims_laws : PiiMatrixLaws dims Z.
Proof. split; intros; simpl; lia. Qed.

(** When [append] finds the set full it asks for room for at least one
    more sample and at most 64 more: the capacity doubles up to 64 samples
    and then grows in blocks of 64 ([rows*2] taken without [int]
    overflow). *)
Theorem append_reserve_size_bounds (r : Z) :
  0 <= r -> r * 2 <= INT_MAX ->
  r < append_reserve_size r <= r + 64 /\
  (r = 0 -> append_reserve_size r = 1) /\
  (1 <= r <= 64 -> append_reserve_size r = 2 * r) /\
  (64 <= r -> append_reserve_size r = r + 64).
Proof.
  unfold append_reserve_size, qBound. intros H0 H1.
  split; [lia|]. split; [lia|]. split; lia.
Qed.

Lemma append_reserve_size_bounds_witness :
  append_reserve_size 100 = 164 /\ append_reserve_size 10 = 20.
Proof.
  split; apply append_reserve_size_bounds; unfold INT_MAX; lia.
Defined.

Section WithLaws.
Context {M T : Type} `{PiiMatrixLaws M T}.


(** [reserve] keeps every sample unless it is given a feature count other
    than [-1] and the current one; then it empties the set and switches to
    that feature count.  Either way it makes room for [sampleCount]
    samples. *)
Theorem reserve_discards_only_on_new_feature_count (m : M) (sc fc : Z) :
  sc <= capacity (reserve m sc fc) /\
  ((fc = -1 \/ fc = featureCount m) ->
   sampleCount (reserve m sc fc) = sampleCount m /\
  featureCount (reserve m sc fc) = featureCount m) /\
  (fc <> -1 -> fc <> featureCount m -> 0 <= fc ->
   sampleCount (reserve m sc fc) = 0 /\ featureCount (reserve m sc fc) = fc).
Proof.
  unfold reserve, sampleCount, featureCount.
  split; [apply capacity_reserve|].
  destruct (Z.eqb_spec fc (-1)) as [Hf|Hf]; destruct (Z.eqb_spec (columns m) fc) as [Hc|Hc];
    cbn [negb andb]; rewrite ?rows_reserve, ?columns_reserve.
  - split; [done|]. intros; contradiction.
  - split; [done|]. intros; contradiction.
  - split; [done|]. intros _ Hn. congruence.
  - split; [intros [|]; congruence|]. intros _ _ Hr0.
    rewrite rows_resize, columns_resize by lia. done.
Qed.

(** [resize] with the default [featureCount = -1] keeps the feature count
    and sets the sample count; with an explicit count it sets both. *)
Theorem resize_default_keeps_feature_count (m : M) (sc fc : Z) :
  0 <= sc -> 0 <= columns m -> (fc = -1 \/ 0 <= fc) ->
  sampleCount (resize m sc fc) = sc /\
  featureCount (resize m sc fc) = (if Z.eqb fc (-1) then featureCount m else fc).
Proof.
  unfold resize, sampleCount, featureCount. intros Hs Hc Hf.
  destruct (Z.eqb_spec fc (-1)) as [->|Hn].
  - rewrite rows_resize, columns_resize by lia. done.
  - rewrite rows_resize, columns_resize by lia. done.
Qed.

End WithLaws.


Lemma reserve_discards_only_on_new_feature_count_witness :
  sampleCount (reserve (mkDims 5 4 8) 10 3) = 0 /\ featureCount (reserve (mkDims 5 4 8) 10 3) = 3.
Proof.
  apply (reserve_discards_only_on_new_feature_count (mkDims 5 4 8) 10 3); simpl; lia.
Defined.

Lemma resize_default_keeps_feature_count_witness :
  sampleCount (resize (mkDims 5 4 8) 7 (-1)) = 7 /\
  featureCount (resize (mkDims 5 4 8) 7 (-1)) = featureCount (mkDims 5 4 8).
Proof.
  apply (resize_default_keeps_feature_count (mkDims 5 4 8) 7 (-1)); simpl; lia.
Defined.

End PiiSampleSet.
